(** * 1f349/cache: an expiring key-value cache and its cleaner goroutine

    A shallow embedding of [cache.go].  The [sync.Map] of the cache is a
    [gmap]; the chain of to-expire keys, a singly linked list owned by the
    cleaner goroutine, is a [list] whose tail plays the part of the [next]
    pointer; the cleaner goroutine is a step function over the events its
    two [select] statements can receive. *)

From Stdlib Require Import ZArith Lia.
From stdpp Require Import gmap strings list fin_maps.

(** ** time.Time

    An instant is the number of nanoseconds since January 1, year 1, UTC, so
    that the zero value [time.Time{}] is [0]. *)
Module GoTime.

Definition Time : Type := Z.

(** [time.Time{}] *)
Definition zero : Time := 0%Z.

(** [t.IsZero()] *)
Definition IsZero (t : Time) : bool := (t =? 0)%Z.

(** [t.Before(u)] *)
Definition Before (t u : Time) : bool := (t <? u)%Z.

(** [t.After(u)] *)
Definition After (t u : Time) : bool := (u <? t)%Z.

(** [time.Duration] is an [int64] count of nanoseconds. *)
Definition minDuration : Z := (- 2 ^ 63)%Z.
Definition maxDuration : Z := (2 ^ 63 - 1)%Z.

(** [t.Sub(u)]: the duration [t - u], or the smallest (largest) duration
    when the difference does not fit. *)
Definition Sub (t u : Time) : Z :=
  if (t - u <? minDuration)%Z then minDuration
  else if (maxDuration <? t - u)%Z then maxDuration
  else (t - u)%Z.

End GoTime.

Import GoTime.

(** ** item

    [type item[T any] struct { data T; expires time.Time }] *)
Record item (T : Type) : Type := Item { data : T; expires : Time }.

Arguments Item {T} data expires.
Arguments data {T} i.
Arguments expires {T} i.

(** [func (c item[T]) HasExpired() bool], with the reading of [timeNow()]
    as its first argument. *)
Definition HasExpired {T : Type} (now : Time) (c : item T) : bool :=
  negb (IsZero (expires c)) && Before (expires c) now.

(** [func timeUntil(t time.Time) time.Duration], with the reading of
    [timeNow()] as its first argument. *)
Definition timeUntil (now t : Time) : Z := Sub t now.

Section Cache.

Context {K : Type} `{Countable K}.
Context {V : Type}.

(** The zero value of [V] ([var v V]). *)
Variable zeroV : V.

(** ** keyed

    [type keyed[K any] struct { item[K]; next *keyed[K] }]: the embedded
    [item[K]] is the node, the [next] pointer is the tail of the list. *)
Definition keyed : Type := item K.

(** ** The values of the map

    Every [Store] of the package stores a [*item[V]]: a pointer, which is an
    address together with the struct it points to (the struct is never
    written after its allocation). *)
Record itemPtr : Type := ItemPtr { addr : nat; pointee : item V }.

(** A value of interface type [any] carries its dynamic type.  Two dynamic
    types occur in the package: [*item[V]], stored in the map, and
    [item[K]], which the cleaner hands to [CompareAndDelete]. *)
Inductive any : Type :=
  | AnyItemPtr (p : itemPtr)
  | AnyItem (i : item K).

(** [==] on [item[K]]: field by field. *)
Definition item_eqb (i j : item K) : bool :=
  bool_decide (data i = data j) && (expires i =? expires j)%Z.

(** [==] on interface values: equal dynamic types and equal values; two
    pointers are equal when they are the same address. *)
Definition any_eqb (a b : any) : bool :=
  match a, b with
  | AnyItemPtr p, AnyItemPtr q => Nat.eqb (addr p) (addr q)
  | AnyItem i, AnyItem j => item_eqb i j
  | _, _ => false
  end.

(** [sync.Map.CompareAndDelete(key, old)]: deletes the entry for [key] if
    its value is equal to [old]. *)
Definition CompareAndDelete (m : gmap K itemPtr) (key : K) (old : any)
  : gmap K itemPtr :=
  match m !! key with
  | Some p => if any_eqb (AnyItemPtr p) old then delete key m else m
  | None => m
  end.

(** ** Cache

    [items] and [chain] as in the struct; [closed] says whether the [close]
    channel has been closed; [nextAddr] is the next free address of the
    allocator.  The channels [chainAdd] and [chainDel] appear as the
    instruction a method sends and as the events the cleaner receives. *)
Record Cache : Type := MkCache {
  items : gmap K itemPtr;
  chain : list keyed;
  closed : bool;
  nextAddr : nat
}.

(** What a method sends to the cleaner. *)
Inductive instr : Type :=
  | ChainAdd (node : keyed)
  | ChainDel (key : K).

(** [New] without the [go c.cleaner()]. *)
Definition New : Cache :=
  {| items := ∅; chain := []; closed := false; nextAddr := 0 |}.

(** [Close]: [close(c.close)]; closing a closed channel panics ([None]). *)
Definition Close (c : Cache) : option Cache :=
  if closed c then None
  else Some {| items := items c; chain := chain c; closed := true;
               nextAddr := nextAddr c |}.

(** ** The chain *)

(** The loop of [chainInsert]: [ring] is the current node and [next] the
    nodes after it. *)
Fixpoint chainInsertLoop (node ring : keyed) (next : list keyed)
  : list keyed :=
  match next with
  | [] => [ring; node]
  | ring' :: next' =>
      if After (expires ring) (expires node) then ring :: node :: next
      else ring :: chainInsertLoop node ring' next'
  end.

Definition chainInsert (node : keyed) (ch : list keyed) : list keyed :=
  match ch with
  | [] => [node]
  | ring :: next => chainInsertLoop node ring next
  end.

(** The loop of [chainSplice]: [next] are the nodes after the current
    ring. *)
Fixpoint chainSpliceLoop (key : K) (next : list keyed) : list keyed :=
  match next with
  | [] => []
  | node :: next' =>
      if decide (data node = key) then next'
      else node :: chainSpliceLoop key next'
  end.

Definition chainSplice (key : K) (ch : list keyed) : list keyed :=
  match ch with
  | [] => []
  | node :: next =>
      if decide (data node = key) then next
      else node :: chainSpliceLoop key next
  end.

(** The loop of the timer case of [cleaner],
    [for c.chain != nil && c.chain.HasExpired() { ... }]; [clk n] is the
    [n]-th reading of [timeNow()]. *)
Fixpoint sweep (clk : nat → Time) (n : nat) (m : gmap K itemPtr)
  (ch : list keyed) : gmap K itemPtr * list keyed :=
  match ch with
  | [] => (m, [])
  | node :: next =>
      if HasExpired (clk n) node
      then sweep clk (S n) (CompareAndDelete m (data node) (AnyItem node)) next
      else (m, ch)
  end.

(** ** The methods *)

(** [GetExpires] *)
Definition GetExpires (now : Time) (c : Cache) (key : K) : V * Time * bool :=
  match items c !! key with
  | None => (zeroV, zero, false)
  | Some i =>
      if HasExpired now (pointee i) then (zeroV, zero, false)
      else (data (pointee i), expires (pointee i), true)
  end.

(** [Get] *)
Definition Get (now : Time) (c : Cache) (key : K) : V * bool :=
  let '(value, _, found) := GetExpires now c key in (value, found).

(** [SetPermanent] *)
Definition SetPermanent (key : K) (value : V) (c : Cache)
  : Cache * option instr :=
  if closed c then (c, None)
  else
    let i := {| addr := nextAddr c; pointee := Item value zero |} in
    ({| items := <[key := i]> (items c); chain := chain c;
        closed := closed c; nextAddr := S (nextAddr c) |}, None).

(** [Set] *)
Definition Set_ (now : Time) (key : K) (value : V) (exp : Time) (c : Cache)
  : Cache * option instr :=
  if closed c then (c, None)
  else if Before exp now then (c, None)
  else
    let i := {| addr := nextAddr c; pointee := Item value exp |} in
    ({| items := <[key := i]> (items c); chain := chain c;
        closed := closed c; nextAddr := S (nextAddr c) |},
     Some (ChainAdd (Item key exp))).

(** [Delete] *)
Definition Delete (key : K) (c : Cache) : Cache * option instr :=
  if closed c then (c, None)
  else
    ({| items := delete key (items c); chain := chain c;
        closed := closed c; nextAddr := nextAddr c |},
     Some (ChainDel key)).

(** [Range]: the visitor [f] threads a state of its own; [rangeLoop] is
    the function handed to [sync.Map.Range], run over the entries in the
    order the map yields them. *)
Fixpoint rangeLoop {St : Type} (f : K → V → St → St * bool)
  (clk : nat → Time) (n : nat) (entries : list (K * itemPtr)) (s : St)
  : St :=
  match entries with
  | [] => s
  | (key, i) :: rest =>
      if HasExpired (clk n) (pointee i) then rangeLoop f clk (S n) rest s
      else
        let '(s', continue) := f key (data (pointee i)) s in
        if continue then rangeLoop f clk (S n) rest s' else s'
  end.

(** [Range] assigns to no field of the cache: it comes back as it was. *)
Definition Range {St : Type} (f : K → V → St → St * bool)
  (clk : nat → Time) (c : Cache) (s : St) : Cache * St :=
  (c, rangeLoop f clk 0 (map_to_list (items c)) s).

(** A visitor that also records each of its invocations and what it
    answered. *)
Definition traced {St : Type} (f : K → V → St → St * bool)
  : K → V → St * list (K * V * bool) → (St * list (K * V * bool)) * bool :=
  λ key value '(s, log),
    let '(s', continue) := f key value s in
    ((s', log ++ [(key, value, continue)]), continue).

(** The visitor that collects what it is shown and always goes on. *)
Definition collect : K → V → list (K * V) → list (K * V) * bool :=
  λ key value seen, (seen ++ [(key, value)], true).

(** ** The cleaner goroutine *)

Inductive phase : Type := Bootstrapping | Armed | Terminated.

(** What a [select] of the cleaner receives; [NoneReady] is the [default]
    case of the first one, [TimerFire clk] is [<-t.C] with the readings of
    [timeNow()] the sweep makes. *)
Inductive event : Type :=
  | RecvClose
  | RecvAdd (node : keyed)
  | RecvDel (key : K)
  | TimerFire (clk : nat → Time)
  | NoneReady.

Definition withChain (c : Cache) (ch : list keyed) : Cache :=
  {| items := items c; chain := ch; closed := closed c;
     nextAddr := nextAddr c |}.

(** [if c.chain == nil { return }], else the timer is set and the loop goes
    on. *)
Definition exitIfEmpty (c : Cache) : phase * Cache :=
  match chain c with
  | [] => (Terminated, c)
  | _ :: _ => (Armed, c)
  end.

(** One step of [cleaner]; [None] when the event cannot be received in the
    phase: a goroutine that has returned receives nothing. *)
Definition cleanerStep (ev : event) (ph : phase) (c : Cache)
  : option (phase * Cache) :=
  match ph, ev with
  | Bootstrapping, RecvAdd node =>
      Some (exitIfEmpty (withChain c (chainInsert node (chain c))))
  | Bootstrapping, RecvDel key =>
      Some (exitIfEmpty (withChain c (chainSplice key (chain c))))
  | Bootstrapping, NoneReady => Some (exitIfEmpty c)
  | Armed, RecvClose => if closed c then Some (Terminated, c) else None
  | Armed, RecvAdd node =>
      Some (exitIfEmpty (withChain c (chainInsert node (chain c))))
  | Armed, RecvDel key =>
      Some (exitIfEmpty (withChain c (chainSplice key (chain c))))
  | Armed, TimerFire clk =>
      match chain c with
      | [] => Some (Terminated, c)
      | _ :: _ =>
          let '(m, ch) := sweep clk 0 (items c) (chain c) in
          Some (exitIfEmpty {| items := m; chain := ch; closed := closed c;
                               nextAddr := nextAddr c |})
      end
  | _, _ => None
  end.

(** ** The cache and its cleaner together *)

Inductive call : Type :=
  | CallSetPermanent (key : K) (value : V)
  | CallSet (key : K) (value : V) (exp : Time)
  | CallDelete (key : K).

Definition applyCall (now : Time) (op : call) (c : Cache)
  : Cache * option instr :=
  match op with
  | CallSetPermanent key value => SetPermanent key value c
  | CallSet key value exp => Set_ now key value exp c
  | CallDelete key => Delete key c
  end.

(** Calls one after the other, each at its own time. *)
Definition applyCalls (ops : list (Time * call)) (c : Cache) : Cache :=
  foldl (λ c' '(now, op), (applyCall now op c').1) c ops.

(** The key a call writes. *)
Definition callKey (op : call) : K :=
  match op with
  | CallSetPermanent key _ => key
  | CallSet key _ _ => key
  | CallDelete key => key
  end.

Inductive action : Type :=
  | ACall (now : Time) (op : call)
  | AClose
  | ACleaner (ev : event).

Record System : Type := MkSystem { cache : Cache; cleanerPhase : phase }.

(** One action of a caller or of the cleaner; [None] when it cannot happen
    (a second [Close], an event the cleaner cannot receive). *)
Definition sysStep (a : action) (s : System) : option System :=
  match a with
  | ACall now op =>
      Some {| cache := fst (applyCall now op (cache s));
              cleanerPhase := cleanerPhase s |}
  | AClose =>
      c' ← Close (cache s); Some {| cache := c'; cleanerPhase := cleanerPhase s |}
  | ACleaner ev =>
      '(ph, c') ← cleanerStep ev (cleanerPhase s) (cache s);
      Some {| cache := c'; cleanerPhase := ph |}
  end.

Fixpoint sysRun (acts : list action) (s : System) : option System :=
  match acts with
  | [] => Some s
  | a :: rest => s' ← sysStep a s; sysRun rest s'
  end.

(** Whether an action is a call that writes or deletes [key]. *)
Definition writesKey (key : K) (a : action) : bool :=
  match a with
  | ACall _ op => bool_decide (callKey op = key)
  | _ => false
  end.

(** Whether an action is a step of the cleaner. *)
Definition isCleaner (a : action) : bool :=
  match a with
  | ACleaner _ => true
  | _ => false
  end.

(** ** What the specification asks of the chain

    Follows the specification, not the code: the new record goes
    immediately before the first node whose expiry is strictly later, and
    at the tail if there is none. *)
Fixpoint spec_insert (node : keyed) (ch : list keyed) : list keyed :=
  match ch with
  | [] => [node]
  | ring :: next =>
      if After (expires ring) (expires node) then node :: ring :: next
      else ring :: spec_insert node next
  end.

(** Ascending by expiry (equal expiries allowed next to each other). *)
Fixpoint ascending (ch : list keyed) : bool :=
  match ch with
  | [] => true
  | ring :: next =>
      match next with
      | [] => true
      | ring' :: _ => negb (After (expires ring) (expires ring')) && ascending next
      end
  end.

End Cache.

(** ** A cache of strings, for the concrete runs *)
Module Run.

Definition SCache : Type := @Cache string _ _ string.

Definition a : string := "a"%string.
Definition b : string := "b"%string.
Definition c : string := "c"%string.

(** A cache whose cleaner has just been started by [New]. *)
Definition fresh : @System string _ _ string :=
  {| cache := New; cleanerPhase := Bootstrapping |}.

(** [Set(a, b, 2)] at time 0, received by the first [select] of the
    cleaner; then the timer fires when the clock reads 3. *)
Definition expireOne : list (@action string string) :=
  [ ACall 0%Z (CallSet a b 2%Z);
    ACleaner (RecvAdd (Item a 2%Z));
    ACleaner (TimerFire (λ _, 3%Z)) ].

(** [Set(a, b, 10)] then [Set(b, c, 5)] at time 0, both received by the
    cleaner. *)
Definition insertEarlier : list (@action string string) :=
  [ ACall 0%Z (CallSet a b 10%Z);
    ACleaner (RecvAdd (Item a 10%Z));
    ACall 0%Z (CallSet b c 5%Z);
    ACleaner (RecvAdd (Item b 5%Z)) ].

(** The cache after [Set(a, b, 2)] at time 0, and the pointer it stored. *)
Definition oneTimed : SCache := fst (Set_ 0%Z a b 2%Z New).

Definition stored : @itemPtr string := ItemPtr 0 (Item b 2%Z).

(** A cache whose chain holds the one record of [a]. *)
Definition oneRecord : SCache :=
  {| items := items oneTimed; chain := [Item a 2%Z]; closed := false;
     nextAddr := 1 |}.

(** [New] after [Close]. *)
Definition shut : SCache :=
  {| items := ∅; chain := []; closed := true; nextAddr := 0 |}.

(** [oneTimed] after [Close]. *)
Definition shutTimed : SCache :=
  {| items := items oneTimed; chain := []; closed := true; nextAddr := 1 |}.

(** Three records in ascending order, two of them of [a]. *)
Definition threeRecords : list (@keyed string) :=
  [Item a 2%Z; Item b 5%Z; Item a 9%Z].

End Run.

(** * Properties *)

Section Facts.

Context {K : Type} `{Countable K}.
Context {V : Type}.
Variable zeroV : V.

Implicit Types (c : @Cache K _ _ V) (m : gmap K (@itemPtr V)).
Implicit Types (ch : list (@keyed K)) (node : @keyed K) (key : K).

(** ** Expiry *)

Lemma HasExpired_spec {T : Type} (now : Time) (i : item T) :
  HasExpired now i = true ↔ expires i ≠ zero ∧ (expires i < now)%Z.
Proof.
  unfold HasExpired, IsZero, Before, zero.
  rewrite andb_true_iff, negb_true_iff, Z.eqb_neq, Z.ltb_lt. tauto.
Qed.

Lemma HasExpired_not_later {T : Type} (now : Time) (i : item T) :
  (now ≤ expires i)%Z → HasExpired now i = false.
Proof.
  intros Hle. apply not_true_is_false. rewrite HasExpired_spec. lia.
Qed.

Lemma HasExpired_zero {T : Type} (now : Time) (i : item T) :
  expires i = zero → HasExpired now i = false.
Proof.
  intros Hz. apply not_true_is_false. rewrite HasExpired_spec. tauto.
Qed.

Lemma HasExpired_later {T : Type} (now : Time) (i : item T) :
  expires i ≠ zero → (expires i < now)%Z → HasExpired now i = true.
Proof. intros. apply HasExpired_spec. tauto. Qed.

(** ** The map under the cleaner *)

(** The value the cleaner compares with is an [item[K]], the stored one a
    [*item[V]]: the comparison fails on the dynamic types. *)
Lemma CompareAndDelete_item m key (i : item K) :
  CompareAndDelete m key (AnyItem i) = m.
Proof. unfold CompareAndDelete. by destruct (m !! key). Qed.

Lemma sweep_items (clk : nat → Time) ch : ∀ n m, (sweep clk n m ch).1 = m.
Proof.
  induction ch as [|node next IH]; intros n m; simpl; [done|].
  destruct (HasExpired (clk n) node); [|done].
  by rewrite IH, CompareAndDelete_item.
Qed.

(** X6: The sweep pops the records of the head that have expired at their
    reading of the clock, and stops at the first that has not. *)
Lemma sweep_pops (clk : nat → Time) ch :
  ∀ n m, ∃ popped,
    ch = popped ++ (sweep clk n m ch).2 ∧
    (∀ (j : nat) node,
       popped !! j = Some node → HasExpired (clk (n + j)) node = true) ∧
    (∀ node,
       head (sweep clk n m ch).2 = Some node →
       HasExpired (clk (n + length popped)) node = false).
Proof.
  induction ch as [|node next IH]; intros n m; simpl.
  - exists []. split; [done|]. split; [|done].
    intros j node' Hj. by rewrite lookup_nil in Hj.
  - destruct (HasExpired (clk n) node) eqn:Hexp.
    + destruct (IH (S n) (CompareAndDelete m (data node) (AnyItem node)))
        as (popped & Hp & Hold & Hstop).
      exists (node :: popped). simpl. split; [by f_equal|]. split.
      * intros [|j] node' Hj; simpl in Hj.
        -- injection Hj as <-. by replace (n + 0) with n by lia.
        -- replace (n + S j) with (S n + j) by lia. by apply Hold.
      * intros node' Hhd.
        replace (n + S (length popped)) with (S n + length popped) by lia.
        by apply Hstop.
    + exists []. simpl. split; [done|]. split.
      * intros j node' Hj. by rewrite lookup_nil in Hj.
      * intros node' [= <-]. by replace (n + 0) with n by lia.
Qed.

Lemma exitIfEmpty_cache c : (exitIfEmpty c).2 = c.
Proof. unfold exitIfEmpty. by destruct (chain c). Qed.

Lemma exitIfEmpty_phase c :
  (exitIfEmpty c).1 = Terminated ↔ chain c = [].
Proof. unfold exitIfEmpty. by destruct (chain c). Qed.

Lemma exitIfEmpty_not_boot c : (exitIfEmpty c).1 ≠ Bootstrapping.
Proof. unfold exitIfEmpty. by destruct (chain c). Qed.

(** From a step that ends in [exitIfEmpty], the cache it leaves. *)
Ltac exit_cache Hstep :=
  apply (inj Some) in Hstep;
  let Hc := fresh "Hc" in
  pose proof (f_equal snd Hstep) as Hc;
  apply (f_equal fst) in Hstep;
  rewrite exitIfEmpty_cache in Hc; simpl in Hc, Hstep.

Lemma cleanerStep_items (ev : event) (ph ph' : phase) c c' :
  cleanerStep ev ph c = Some (ph', c') →
  items c' = items c ∧ closed c' = closed c.
Proof.
  intros Hstep.
  destruct ph, ev; simpl in Hstep; try discriminate;
    try (exit_cache Hstep; by subst c').
  - destruct (closed c) eqn:Hcl; [|discriminate]. by injection Hstep as _ <-.
  - destruct (chain c) as [|node next] eqn:Hch.
    + by injection Hstep as _ <-.
    + pose proof (sweep_items clk (node :: next) 0 (items c)) as Hm.
      destruct (sweep clk 0 (items c) (node :: next)) as [m' ch'].
      exit_cache Hstep. subst c'. by simpl in *.
Qed.

(** ** The chain *)

Lemma chainInsertLoop_nonempty node ring next :
  chainInsertLoop node ring next ≠ [].
Proof. destruct next; simpl; [done|]. by case_match. Qed.

Lemma chainInsert_nonempty node ch : chainInsert node ch ≠ [].
Proof. destruct ch; simpl; [done|]. apply chainInsertLoop_nonempty. Qed.

(** ** Calls *)

Lemma applyCall_chain (now : Time) (op : call) c :
  chain (applyCall now op c).1 = chain c.
Proof.
  destruct op; simpl; unfold SetPermanent, Set_, Delete;
    repeat case_match; done.
Qed.

Lemma applyCall_other (now : Time) (op : call) c key :
  callKey op ≠ key → items (applyCall now op c).1 !! key = items c !! key.
Proof.
  intros Hne.
  destruct op; simpl in *; unfold SetPermanent, Set_, Delete;
    repeat case_match; simpl; try done.
  - by rewrite lookup_insert_ne.
  - by rewrite lookup_insert_ne.
  - by rewrite lookup_delete_ne.
Qed.

Lemma applyCall_closed (now : Time) (op : call) c :
  closed c = true → applyCall now op c = (c, None).
Proof.
  intros Hc. destruct op; simpl; unfold SetPermanent, Set_, Delete;
    by rewrite Hc.
Qed.

(** An entry stays as it is as long as no call writes its key. *)
Lemma sysRun_other key (acts : list action) :
  ∀ s s' : @System K _ _ V,
  forallb (λ a, negb (writesKey key a)) acts = true →
  sysRun acts s = Some s' →
  items (cache s') !! key = items (cache s) !! key.
Proof.
  induction acts as [|act rest IH]; intros s s' Hw Hrun; simpl in *.
  - by injection Hrun as <-.
  - apply andb_true_iff in Hw as [Hact Hrest].
    destruct (sysStep act s) as [s1|] eqn:Hstep; [|discriminate].
    simpl in Hrun. rewrite (IH _ _ Hrest Hrun). clear IH Hrun.
    destruct act as [now op| |ev]; simpl in *.
    + injection Hstep as <-. simpl. apply applyCall_other.
      apply negb_true_iff, bool_decide_eq_false in Hact. done.
    + unfold Close in Hstep. destruct (closed (cache s)); [discriminate|].
      by injection Hstep as <-.
    + destruct (cleanerStep ev (cleanerPhase s) (cache s)) as [[ph c1]|]
        eqn:Hcl; [|discriminate].
      injection Hstep as <-. simpl.
      by destruct (cleanerStep_items _ _ _ _ _ Hcl) as [-> _].
Qed.

(** Once the cleaner has returned, nothing writes the chain. *)
Lemma sysRun_terminated (acts : list action) :
  ∀ s s' : @System K _ _ V,
  cleanerPhase s = Terminated →
  sysRun acts s = Some s' →
  cleanerPhase s' = Terminated ∧ chain (cache s') = chain (cache s).
Proof.
  induction acts as [|act rest IH]; intros s s' Hph Hrun; simpl in *.
  - by injection Hrun as <-.
  - destruct (sysStep act s) as [s1|] eqn:Hstep; [|discriminate].
    simpl in Hrun.
    assert (cleanerPhase s1 = Terminated ∧ chain (cache s1) = chain (cache s))
      as [Hph1 Hch1].
    { destruct act as [now op| |ev]; simpl in *.
      - injection Hstep as <-. simpl. by rewrite applyCall_chain.
      - unfold Close in Hstep. destruct (closed (cache s)); [discriminate|].
        by injection Hstep as <-.
      - rewrite Hph in Hstep. by destruct ev. }
    destruct (IH _ _ Hph1 Hrun) as [? ?]. split; [done|congruence].
Qed.

(** ** Reads *)

Lemma Get_GetExpires (now : Time) c key :
  Get zeroV now c key =
    ((GetExpires zeroV now c key).1.1, (GetExpires zeroV now c key).2).
Proof. unfold Get. by destruct (GetExpires zeroV now c key) as [[? ?] ?]. Qed.

Lemma GetExpires_items (now : Time) c c' key :
  items c' !! key = items c !! key →
  GetExpires zeroV now c' key = GetExpires zeroV now c key.
Proof. unfold GetExpires. by intros ->. Qed.

Lemma Get_items (now : Time) c c' key :
  items c' !! key = items c !! key →
  Get zeroV now c' key = Get zeroV now c key.
Proof. intros Hi. by rewrite !Get_GetExpires, (GetExpires_items _ _ _ _ Hi). Qed.

Lemma GetExpires_live (now : Time) c key (i : itemPtr) :
  items c !! key = Some i →
  HasExpired now (pointee i) = false →
  GetExpires zeroV now c key = (data (pointee i), expires (pointee i), true).
Proof. unfold GetExpires. by intros -> ->. Qed.

Lemma GetExpires_expired (now : Time) c key (i : itemPtr) :
  items c !! key = Some i →
  HasExpired now (pointee i) = true →
  GetExpires zeroV now c key = (zeroV, zero, false).
Proof. unfold GetExpires. by intros -> ->. Qed.

(** C3 (amended): for a key stored with expiry [e], [GetExpires] and [Get]
    return the stored value with found=true at every time [t ≤ e], and the
    zero value, the zero expiry and found=false at every time [t > e]; a
    sweep of the cleaner that ran before the read changes neither answer. *)
Theorem C3_lazy_expiry c key (i : itemPtr) (t : Time) :
  items c !! key = Some i →
  expires (pointee i) ≠ zero →
  ((t ≤ expires (pointee i))%Z →
     GetExpires zeroV t c key = (data (pointee i), expires (pointee i), true) ∧
     Get zeroV t c key = (data (pointee i), true)) ∧
  ((expires (pointee i) < t)%Z →
     GetExpires zeroV t c key = (zeroV, zero, false) ∧
     Get zeroV t c key = (zeroV, false)) ∧
  (∀ (clk : nat → Time) (ph' : phase) c',
     (∀ n, (clk n ≤ t)%Z) →
     cleanerStep (TimerFire clk) Armed c = Some (ph', c') →
     GetExpires zeroV t c' key = GetExpires zeroV t c key ∧
     Get zeroV t c' key = Get zeroV t c key).
Proof.
  intros Hi Hnz. split; [|split].
  - intros Hle.
    pose proof (GetExpires_live t c key i Hi (HasExpired_not_later _ _ Hle))
      as Hg.
    split; [done|]. by rewrite Get_GetExpires, Hg.
  - intros Hlt.
    pose proof (GetExpires_expired t c key i Hi (HasExpired_later _ _ Hnz Hlt))
      as Hg.
    split; [done|]. by rewrite Get_GetExpires, Hg.
  - intros clk ph' c' _ Hstep.
    destruct (cleanerStep_items _ _ _ _ _ Hstep) as [Hitems _].
    split; [apply GetExpires_items | apply Get_items]; by rewrite Hitems.
Qed.

(** ** Writes *)

(** C4 (amended): [Set] on an open cache with an expiry strictly earlier
    than the current time is a no-op: the cache, and so the store and every
    read of it, is unchanged, and no instruction is sent on [chainAdd]. *)
Theorem C4_set_past_noop c (now : Time) key (value : V) (exp : Time) :
  closed c = false →
  (exp < now)%Z →
  Set_ now key value exp c = (c, None) ∧
  (∀ (t : Time) k,
     GetExpires zeroV t (Set_ now key value exp c).1 k
     = GetExpires zeroV t c k).
Proof.
  intros Hopen Hlt.
  assert (Set_ now key value exp c = (c, None)) as Hset.
  { unfold Set_, Before. rewrite Hopen.
    by destruct (Z.ltb_spec exp now); [|lia]. }
  split; [done|]. intros t k. by rewrite Hset.
Qed.

Lemma applyCalls_closed (ops : list (Time * call)) c :
  closed c = true → applyCalls ops c = c.
Proof.
  intros Hc. unfold applyCalls.
  induction ops as [|[now op] rest IH]; simpl; [done|].
  by rewrite (applyCall_closed _ _ _ Hc).
Qed.

(** ** Permanent entries *)

Lemma SetPermanent_open c key (value : V) :
  closed c = false →
  SetPermanent key value c =
    ({| items := <[key := ItemPtr (nextAddr c) (Item value zero)]> (items c);
        chain := chain c; closed := false; nextAddr := S (nextAddr c) |},
     None).
Proof. unfold SetPermanent. by intros ->. Qed.

Lemma GetExpires_permanent (now : Time) c key (n : nat) (value : V) :
  items c !! key = Some (ItemPtr n (Item value zero)) →
  GetExpires zeroV now c key = (value, zero, true).
Proof. intros Hi. by rewrite (GetExpires_live now c key _ Hi). Qed.

(** C7: on an open cache [SetPermanent] stores the value with the zero
    expiry, sends no instruction and leaves the chain alone; [Get] then
    returns the value at every time, also after any calls that do not write
    or delete the key and any steps of the cleaner; a second [SetPermanent]
    of the same key and value leaves the same entries in the store. *)
Theorem C7_permanent c key (value : V) :
  closed c = false →
  (SetPermanent key value c).2 = None ∧
  chain (SetPermanent key value c).1 = chain c ∧
  pointee <$> items (SetPermanent key value c).1 !! key
    = Some (Item value zero) ∧
  (∀ now : Time, Get zeroV now (SetPermanent key value c).1 key = (value, true)) ∧
  (∀ (acts : list action) (ph : phase) (s' : System) (now : Time),
     forallb (λ a, negb (writesKey key a)) acts = true →
     sysRun acts {| cache := (SetPermanent key value c).1; cleanerPhase := ph |}
       = Some s' →
     Get zeroV now (cache s') key = (value, true)) ∧
  (SetPermanent key value (SetPermanent key value c).1).2 = None ∧
  chain (SetPermanent key value (SetPermanent key value c).1).1 = chain c ∧
  pointee <$> items (SetPermanent key value (SetPermanent key value c).1).1
    = pointee <$> items (SetPermanent key value c).1.
Proof.
  intros Hopen. rewrite (SetPermanent_open _ _ _ Hopen).
  unfold SetPermanent. simpl.
  split; [done|]. split; [done|]. split; [by rewrite lookup_insert_eq|].
  split; [|split; [|split; [done|split; [done|]]]].
  - intros now. rewrite Get_GetExpires.
    erewrite GetExpires_permanent; [done|]. simpl. apply lookup_insert_eq.
  - intros acts ph s' now Hw Hrun.
    pose proof (sysRun_other key acts _ _ Hw Hrun) as Hi. simpl in Hi.
    rewrite lookup_insert_eq in Hi.
    rewrite Get_GetExpires. by erewrite GetExpires_permanent.
  - by rewrite insert_insert_eq, !fmap_insert.
Qed.

(** C10: after [SetPermanent] on an open cache, and as long as no call
    writes or deletes the key, [GetExpires] returns the value, the zero
    instant and found=true; for a key that is not in the store it returns
    the zero value, the zero instant and found=false: the expiry is the same
    in both answers, only the flag differs. *)
Theorem C10_permanent_zero_expiry c key (value : V) (now : Time) :
  closed c = false →
  GetExpires zeroV now (SetPermanent key value c).1 key = (value, zero, true) ∧
  (∀ (acts : list action) (ph : phase) (s' : System),
     forallb (λ a, negb (writesKey key a)) acts = true →
     sysRun acts {| cache := (SetPermanent key value c).1; cleanerPhase := ph |}
       = Some s' →
     GetExpires zeroV now (cache s') key = (value, zero, true)) ∧
  (∀ c0 k, items c0 !! k = None →
     GetExpires zeroV now c0 k = (zeroV, zero, false) ∧
     (GetExpires zeroV now c0 k).1.2
       = (GetExpires zeroV now (SetPermanent key value c).1 key).1.2 ∧
     (GetExpires zeroV now c0 k).2
       ≠ (GetExpires zeroV now (SetPermanent key value c).1 key).2).
Proof.
  intros Hopen.
  assert (GetExpires zeroV now (SetPermanent key value c).1 key
          = (value, zero, true)) as Hg.
  { rewrite (SetPermanent_open _ _ _ Hopen). simpl.
    eapply GetExpires_permanent. simpl. apply lookup_insert_eq. }
  split; [done|]. split.
  - intros acts ph s' Hw Hrun.
    pose proof (sysRun_other key acts _ _ Hw Hrun) as Hi.
    rewrite (SetPermanent_open _ _ _ Hopen) in Hi. simpl in Hi.
    rewrite lookup_insert_eq in Hi. by erewrite GetExpires_permanent.
  - intros c0 k Hnone. rewrite Hg. unfold GetExpires. by rewrite Hnone.
Qed.

(** ** Range *)

Lemma rangeLoop_traced {St : Type} (f : K → V → St → St * bool)
  (clk : nat → Time) (entries : list (K * itemPtr)) :
  ∀ (n : nat) (s : St) (log : list (K * V * bool)),
  ∃ calls : list (K * V * bool),
    rangeLoop (traced f) clk n entries (s, log)
      = (rangeLoop f clk n entries s, log ++ calls) ∧
    (∀ k v b, (k, v, b) ∈ calls →
       ∃ (j : nat) (i : itemPtr),
         entries !! j = Some (k, i) ∧ v = data (pointee i) ∧
         HasExpired (clk (n + j)) (pointee i) = false) ∧
    (∀ (j : nat) k v b,
       calls !! j = Some (k, v, b) → S j < length calls → b = true).
Proof.
  induction entries as [|[key i] rest IH]; intros n s log.
  - exists []. simpl. rewrite app_nil_r. split; [done|].
    split; [intros k v b Hin; by apply elem_of_nil in Hin|].
    intros j k v b Hj. by rewrite lookup_nil in Hj.
  - cbn [rangeLoop]. destruct (HasExpired (clk n) (pointee i)) eqn:Hexp.
    + destruct (IH (S n) s log) as (calls & Heq & Hlive & Hstop).
      exists calls. split; [done|]. split; [|done].
      intros k v b Hin.
      destruct (Hlive k v b Hin) as (j & i' & Hj & Hv & Hx).
      exists (S j), i'. split; [done|]. split; [done|].
      by replace (n + S j) with (S n + j) by lia.
    + unfold traced at 1.
      destruct (f key (data (pointee i)) s) as [s' continue] eqn:Hf.
      destruct continue.
      * destruct (IH (S n) s' (log ++ [(key, data (pointee i), true)]))
          as (calls & Heq & Hlive & Hstop).
        exists ((key, data (pointee i), true) :: calls).
        rewrite Heq, <- app_assoc. split; [done|]. split.
        -- intros k v b [Hhd|Htl]%elem_of_cons.
           ++ injection Hhd as -> -> ->. exists 0, i.
              split; [done|]. split; [done|].
              by replace (n + 0) with n by lia.
           ++ destruct (Hlive k v b Htl) as (j & i' & Hj & Hv & Hx).
              exists (S j), i'. split; [done|]. split; [done|].
              by replace (n + S j) with (S n + j) by lia.
        -- intros [|j] k v b Hj Hlen; simpl in Hj, Hlen.
           ++ by injection Hj as _ _ <-.
           ++ apply (Hstop j k v b Hj). lia.
      * exists [(key, data (pointee i), false)]. split; [done|]. split.
        -- intros k v b Hin. apply list_elem_of_singleton in Hin.
           injection Hin as -> -> ->. exists 0, i.
           split; [done|]. split; [done|].
           by replace (n + 0) with n by lia.
        -- intros j k v b Hj Hlen. simpl in Hlen. lia.
Qed.

(** C8: [Range] invokes the visitor only on entries of the store that have
    not expired at the reading of the clock made for them, makes no further
    invocation once the visitor has answered false, and returns the cache
    as it was: store and chain are unchanged. *)
Theorem C8_range {St : Type} (f : K → V → St → St * bool)
  (clk : nat → Time) c (s : St) :
  ∃ calls : list (K * V * bool),
    Range (traced f) clk c (s, []) = (c, ((Range f clk c s).2, calls)) ∧
    (Range f clk c s).1 = c ∧
    (∀ k v b, (k, v, b) ∈ calls →
       ∃ (j : nat) (i : itemPtr),
         map_to_list (items c) !! j = Some (k, i) ∧
         items c !! k = Some i ∧ v = data (pointee i) ∧
         HasExpired (clk j) (pointee i) = false) ∧
    (∀ (j : nat) k v b,
       calls !! j = Some (k, v, b) → S j < length calls → b = true).
Proof.
  destruct (rangeLoop_traced f clk (map_to_list (items c)) 0 s [])
    as (calls & Heq & Hlive & Hstop).
  exists calls. unfold Range. simpl. rewrite Heq. simpl.
  split; [done|]. split; [done|]. split; [|done].
  intros k v b Hin.
  destruct (Hlive k v b Hin) as (j & i & Hj & Hv & Hx).
  exists j, i. split; [done|]. split; [|done].
  apply elem_of_map_to_list, list_elem_of_lookup. by exists j.
Qed.

Lemma rangeLoop_collect_mono (clk : nat → Time)
  (entries : list (K * itemPtr)) (x : K * V) :
  ∀ (n : nat) (seen : list (K * V)),
  x ∈ seen → x ∈ rangeLoop collect clk n entries seen.
Proof.
  induction entries as [|[key i] rest IH]; intros n seen Hin; simpl; [done|].
  destruct (HasExpired (clk n) (pointee i)); apply IH; [done|].
  apply elem_of_app. by left.
Qed.

Lemma rangeLoop_collect_visits (clk : nat → Time)
  (entries : list (K * itemPtr)) key (i : itemPtr) :
  (key, i) ∈ entries →
  (∀ n, HasExpired (clk n) (pointee i) = false) →
  ∀ (n : nat) (seen : list (K * V)),
  (key, data (pointee i)) ∈ rangeLoop collect clk n entries seen.
Proof.
  intros Hin Hlive.
  induction entries as [|[key' i'] rest IH]; intros n seen.
  - by apply elem_of_nil in Hin.
  - apply elem_of_cons in Hin as [Hhd|Htl].
    + injection Hhd as <- <-. simpl. rewrite Hlive.
      apply rangeLoop_collect_mono, elem_of_app. right.
      by apply list_elem_of_singleton.
    + simpl. destruct (HasExpired (clk n) (pointee i')); by apply IH.
Qed.

(** ** After Close *)

(** From a closed cache no run changes the store: the calls return at
    once, and no step of the cleaner writes it. *)
Lemma sysRun_closed (acts : list action) :
  ∀ s s' : @System K _ _ V,
  closed (cache s) = true →
  sysRun acts s = Some s' →
  closed (cache s') = true ∧ items (cache s') = items (cache s).
Proof.
  induction acts as [|act rest IH]; intros s s' Hclosed Hrun; simpl in Hrun.
  - by injection Hrun as <-.
  - destruct (sysStep act s) as [s1|] eqn:Hstep; [|discriminate].
    simpl in Hrun.
    assert (closed (cache s1) = true ∧ items (cache s1) = items (cache s))
      as [Hclosed1 Hitems1].
    { destruct act as [now op| |ev]; simpl in Hstep.
      - injection Hstep as <-. simpl.
        by rewrite (applyCall_closed _ _ _ Hclosed).
      - unfold Close in Hstep. by rewrite Hclosed in Hstep.
      - destruct (cleanerStep ev (cleanerPhase s) (cache s)) as [[ph c1]|]
          eqn:Hcl; [|discriminate].
        injection Hstep as <-. simpl.
        by destruct (cleanerStep_items _ _ _ _ _ Hcl) as [-> ->]. }
    destruct (IH s1 s' Hclosed1 Hrun) as [? ->]. done.
Qed.

(** C6: once [Close] has been called, [SetPermanent], [Set] and [Delete]
    return at once: the cache is unchanged and nothing is sent on
    [chainAdd] or [chainDel], however many calls follow.  The reads go on:
    after any calls and any steps of the cleaner, an entry that was in the
    store when it was closed is returned by [GetExpires] and [Get] and shown
    by [Range] as long as it has not expired, with its value and its expiry;
    once it has expired, and for a key that was not in the store, the read
    reports not-found.  [GetExpires], [Get] and [Range] answer as they did
    on the cache that was closed. *)
Theorem C6_closed_noop c c' :
  Close c = Some c' →
  (∀ key (value : V), SetPermanent key value c' = (c', None)) ∧
  (∀ (now : Time) key (value : V) (exp : Time),
     Set_ now key value exp c' = (c', None)) ∧
  (∀ key, Delete key c' = (c', None)) ∧
  (∀ ops : list (Time * call), applyCalls ops c' = c') ∧
  (∀ (t : Time) key,
     GetExpires zeroV t c' key = GetExpires zeroV t c key ∧
     Get zeroV t c' key = Get zeroV t c key) ∧
  (∀ (St : Type) (f : K → V → St → St * bool) (clk : nat → Time) (s : St),
     (Range f clk c' s).2 = (Range f clk c s).2) ∧
  (∀ (acts : list action) (ph : phase) (s : System),
     sysRun acts {| cache := c'; cleanerPhase := ph |} = Some s →
     closed (cache s) = true ∧
     items (cache s) = items c ∧
     (∀ key (i : itemPtr) (t : Time),
        items c !! key = Some i →
        HasExpired t (pointee i) = false →
        GetExpires zeroV t (cache s) key
          = (data (pointee i), expires (pointee i), true) ∧
        Get zeroV t (cache s) key = (data (pointee i), true) ∧
        (key, data (pointee i)) ∈ (Range collect (λ _, t) (cache s) []).2) ∧
     (∀ key (i : itemPtr) (t : Time),
        items c !! key = Some i →
        HasExpired t (pointee i) = true →
        GetExpires zeroV t (cache s) key = (zeroV, zero, false) ∧
        Get zeroV t (cache s) key = (zeroV, false)) ∧
     (∀ key (t : Time),
        items c !! key = None →
        GetExpires zeroV t (cache s) key = (zeroV, zero, false) ∧
        Get zeroV t (cache s) key = (zeroV, false))).
Proof.
  unfold Close. destruct (closed c) eqn:Hc; [discriminate|].
  intros [= <-].
  split; [done|]. split; [done|]. split; [done|].
  split; [intros ops; by apply applyCalls_closed|].
  split; [intros t key;
          split; [by apply GetExpires_items | by apply Get_items]|].
  split; [done|].
  intros acts ph s Hrun.
  destruct (sysRun_closed acts
              {| cache := {| items := items c; chain := chain c;
                             closed := true; nextAddr := nextAddr c |};
                 cleanerPhase := ph |} s eq_refl Hrun)
    as [Hclosed Hitems].
  simpl in Hitems.
  split; [done|]. split; [done|]. split; [|split].
  - intros key i t Hi Hlive. rewrite <- Hitems in Hi.
    pose proof (GetExpires_live t (cache s) key i Hi Hlive) as Hg.
    split; [done|]. split; [by rewrite Get_GetExpires, Hg|].
    unfold Range. simpl. apply rangeLoop_collect_visits; [|done].
    by apply elem_of_map_to_list.
  - intros key i t Hi Hexp. rewrite <- Hitems in Hi.
    pose proof (GetExpires_expired t (cache s) key i Hi Hexp) as Hg.
    split; [done|]. by rewrite Get_GetExpires, Hg.
  - intros key t Hnone. rewrite <- Hitems in Hnone.
    assert (GetExpires zeroV t (cache s) key = (zeroV, zero, false)) as Hg
      by (unfold GetExpires; by rewrite Hnone).
    split; [done|]. by rewrite Get_GetExpires, Hg.
Qed.

(** ** The boundary *)

Lemma Set_open_not_past c (now : Time) key (value : V) (exp : Time) :
  closed c = false →
  (now ≤ exp)%Z →
  Set_ now key value exp c =
    ({| items := <[key := ItemPtr (nextAddr c) (Item value exp)]> (items c);
        chain := chain c; closed := false; nextAddr := S (nextAddr c) |},
     Some (ChainAdd (Item key exp))).
Proof.
  intros Hopen Hle. unfold Set_, Before. rewrite Hopen.
  by destruct (Z.ltb_spec exp now); [lia|].
Qed.

(** C9: when the clock reads exactly the expiry of an entry, [GetExpires]
    and [Get] find it, [Range] shows it to the visitor, and the sweep leaves
    a chain whose head has that expiry as it is; [Set] on an open cache with
    an expiry equal to the clock writes the store and sends the node on
    [chainAdd]. *)
Theorem C9_boundary_is_live c key (i : itemPtr) (now : Time) :
  items c !! key = Some i →
  expires (pointee i) = now →
  GetExpires zeroV now c key = (data (pointee i), now, true) ∧
  Get zeroV now c key = (data (pointee i), true) ∧
  (key, data (pointee i)) ∈ (Range collect (λ _, now) c []).2 ∧
  (∀ (clk : nat → Time) (n : nat) m node ch,
     clk n = expires node → sweep clk n m (node :: ch) = (m, node :: ch)) ∧
  (∀ c0 k (value : V),
     closed c0 = false →
     Set_ now k value now c0 =
       ({| items := <[k := ItemPtr (nextAddr c0) (Item value now)]> (items c0);
           chain := chain c0; closed := false;
           nextAddr := S (nextAddr c0) |},
        Some (ChainAdd (Item k now)))).
Proof.
  intros Hi Hexp.
  assert (HasExpired now (pointee i) = false) as Hlive
    by (apply HasExpired_not_later; lia).
  pose proof (GetExpires_live now c key i Hi Hlive) as Hg.
  rewrite Hexp in Hg.
  split; [done|]. split; [by rewrite Get_GetExpires, Hg|].
  split; [|split].
  - unfold Range. simpl. apply rangeLoop_collect_visits; [|done].
    by apply elem_of_map_to_list.
  - intros clk n m node ch Hclk. simpl.
    by rewrite HasExpired_not_later by lia.
  - intros c0 k value Hopen. apply Set_open_not_past; [done|lia].
Qed.

(** ** The life of the cleaner *)

(** A step of the cleaner ends it exactly when it received the close signal
    or left the chain empty; the step after an insert never does, and a
    cleaner that has returned takes no step. *)
Lemma cleanerStep_exits (ev : event) (ph ph' : phase) c c' :
  cleanerStep ev ph c = Some (ph', c') →
  ph ≠ Terminated ∧
  (ph' = Terminated ↔ ev = RecvClose ∨ chain c' = []) ∧
  (ph = Bootstrapping →
     ev ≠ RecvClose ∧ (∀ clk, ev ≠ TimerFire clk) ∧
     (ph' = Terminated ↔ chain c' = [])) ∧
  ph' ≠ Bootstrapping ∧
  (∀ node, ev = RecvAdd node → ph' = Armed ∧ chain c' ≠ []) ∧
  (∀ ev' c0, cleanerStep ev' Terminated c0 = None) ∧
  (ph' = Terminated →
     ∀ (acts : list action) (s : System),
       sysRun acts {| cache := c'; cleanerPhase := ph' |} = Some s →
       cleanerPhase s = Terminated ∧ chain (cache s) = chain c').
Proof.
  intros Hstep.
  assert (ph' = Terminated ↔ ev = RecvClose ∨ chain c' = []) as Hexit.
  { destruct ph, ev; simpl in Hstep; try discriminate;
      try (exit_cache Hstep; subst ph' c';
           rewrite exitIfEmpty_phase; split; [by right|];
           intros [?|?]; [discriminate|done]).
    - destruct (closed c); [|discriminate]. injection Hstep as <- <-.
      split; [by left|done].
    - destruct (chain c) as [|node next] eqn:Hch.
      + injection Hstep as <- <-. split; [by right|done].
      + destruct (sweep clk 0 (items c) (node :: next)) as [m' ch'].
        exit_cache Hstep. subst ph' c'.
        rewrite exitIfEmpty_phase. split; [by right|].
        intros [?|?]; [discriminate|done]. }
  assert (ph' ≠ Bootstrapping) as Hboot.
  { intros ->.
    destruct ph, ev; simpl in Hstep; try discriminate;
      try (exit_cache Hstep; by apply exitIfEmpty_not_boot in Hstep).
    - by destruct (closed c).
    - destruct (chain c) as [|node next]; [discriminate|].
      destruct (sweep clk 0 (items c) (node :: next)) as [m' ch'].
      exit_cache Hstep. by apply exitIfEmpty_not_boot in Hstep. }
  split; [intros ->; by destruct ev|]. split; [done|].
  split; [|split; [done|split; [|split]]].
  - intros ->. split; [intros ->; discriminate|].
    split; [intros clk ->; discriminate|].
    rewrite Hexit. split; [|by right].
    intros [->|]; [discriminate|done].
  - intros node ->.
    assert (chain c' ≠ []) as Hne.
    { destruct ph; simpl in Hstep; try discriminate;
        exit_cache Hstep; subst c'; simpl; apply chainInsert_nonempty. }
    split; [|done]. destruct ph'; [done|done|].
    exfalso. apply Hne. by destruct (proj1 Hexit eq_refl).
  - intros ev' c0. by destruct ev'.
  - intros -> acts s Hrun.
    by apply (sysRun_terminated acts
                {| cache := c'; cleanerPhase := Terminated |} s).
Qed.

(** C5: the first [select] of the cleaner is one check that does not block:
    with nothing pending, or after the insert or the delete it received,
    the cleaner returns if the chain is empty and enters its loop if not;
    it receives neither the close signal nor the timer there.  In the loop
    the cleaner returns on the close signal, and after the sweep of a timer
    or after a delete when these leave the chain empty; it goes on
    otherwise, and always after an insert.  A step ends the cleaner exactly
    when it received the close signal or left the chain empty, and a
    cleaner that has returned takes no step: whatever is called afterwards,
    the chain stays as it was. *)
Theorem C5_cleaner_exit c node key (clk : nat → Time) :
  (chain c = [] →
     cleanerStep NoneReady Bootstrapping c = Some (Terminated, c)) ∧
  (chain c ≠ [] →
     cleanerStep NoneReady Bootstrapping c = Some (Armed, c)) ∧
  cleanerStep RecvClose Bootstrapping c = None ∧
  cleanerStep (TimerFire clk) Bootstrapping c = None ∧
  (∀ ph : phase, ph ≠ Terminated →
     cleanerStep (RecvAdd node) ph c
       = Some (Armed, withChain c (chainInsert node (chain c))) ∧
     (chainSplice key (chain c) = [] →
        cleanerStep (RecvDel key) ph c = Some (Terminated, withChain c [])) ∧
     (chainSplice key (chain c) ≠ [] →
        cleanerStep (RecvDel key) ph c
          = Some (Armed, withChain c (chainSplice key (chain c))))) ∧
  (chain c = [] →
     cleanerStep (TimerFire clk) Armed c = Some (Terminated, c)) ∧
  (chain c ≠ [] →
     ((sweep clk 0 (items c) (chain c)).2 = [] →
        cleanerStep (TimerFire clk) Armed c
          = Some (Terminated,
                  {| items := (sweep clk 0 (items c) (chain c)).1;
                     chain := []; closed := closed c;
                     nextAddr := nextAddr c |})) ∧
     ((sweep clk 0 (items c) (chain c)).2 ≠ [] →
        cleanerStep (TimerFire clk) Armed c
          = Some (Armed,
                  {| items := (sweep clk 0 (items c) (chain c)).1;
                     chain := (sweep clk 0 (items c) (chain c)).2;
                     closed := closed c; nextAddr := nextAddr c |}))) ∧
  (closed c = true → cleanerStep RecvClose Armed c = Some (Terminated, c)) ∧
  (closed c = false → cleanerStep RecvClose Armed c = None) ∧
  cleanerStep NoneReady Armed c = None ∧
  (∀ ev : event, cleanerStep ev Terminated c = None) ∧
  (∀ (ev : event) (ph ph' : phase) c',
     cleanerStep ev ph c = Some (ph', c') →
     ph ≠ Terminated ∧ ph' ≠ Bootstrapping ∧
     (ph' = Terminated ↔ ev = RecvClose ∨ chain c' = [])) ∧
  (∀ (acts : list action) (s : System),
     sysRun acts {| cache := c; cleanerPhase := Terminated |} = Some s →
     cleanerPhase s = Terminated ∧ chain (cache s) = chain c).
Proof.
  assert (∀ c0 : @Cache K _ _ V,
            chain c0 = [] → exitIfEmpty c0 = (Terminated, c0))
    as Hempty by (intros c0 Hnil; unfold exitIfEmpty; by rewrite Hnil).
  assert (∀ c0 : @Cache K _ _ V,
            chain c0 ≠ [] → exitIfEmpty c0 = (Armed, c0))
    as Hfull by (intros c0 Hne; unfold exitIfEmpty; by destruct (chain c0)).
  split; [intros Hnil; simpl; by rewrite Hempty|].
  split; [intros Hne; simpl; by rewrite Hfull|].
  split; [done|]. split; [done|]. split.
  { intros ph Hph.
    assert (cleanerStep (RecvAdd node) ph c
            = Some (exitIfEmpty (withChain c (chainInsert node (chain c)))))
      as -> by (by destruct ph).
    assert (cleanerStep (RecvDel key) ph c
            = Some (exitIfEmpty (withChain c (chainSplice key (chain c)))))
      as -> by (by destruct ph).
    split; [|split].
    - rewrite Hfull; [done|]. simpl. apply chainInsert_nonempty.
    - intros Hnil. rewrite Hempty by done. by rewrite Hnil.
    - intros Hne. by rewrite Hfull. }
  split; [intros Hnil; simpl; by rewrite Hnil|]. split.
  { intros Hne. simpl. destruct (chain c) as [|ring next] eqn:Hch; [done|].
    destruct (sweep clk 0 (items c) (ring :: next)) as [m' ch'] eqn:Hsw.
    simpl. split.
    - intros ->. by rewrite Hempty.
    - intros Hne'. by rewrite Hfull. }
  split; [intros Hcl; simpl; by rewrite Hcl|].
  split; [intros Hcl; simpl; by rewrite Hcl|].
  split; [done|]. split; [intros ev; by destruct ev|]. split.
  - intros ev ph ph' c' Hstep.
    destruct (cleanerStep_exits ev ph ph' c c' Hstep)
      as (Hph & Hexit & _ & Hboot & _).
    done.
  - intros acts s Hrun.
    by apply (sysRun_terminated acts
                {| cache := c; cleanerPhase := Terminated |} s).
Qed.

End Facts.

(** * Concrete runs *)

Section Runs.

Import Run.

Local Open Scope Z_scope.

(** C1: [Set(a, b, 2)] at time 0 reaches the cleaner, and the timer fires
    when the clock reads 3.  The sweep pops the record of [a], the chain is
    empty and the cleaner returns, but the entry of [a], expired and never
    overwritten or deleted, is still in the store: the [item[K]] the cleaner
    hands to [CompareAndDelete] is never equal to the stored [*item[V]]. *)
Theorem C1_sweep_keeps_expired_entry :
  (λ s, (cleanerPhase s, chain (cache s), items (cache s) !! a))
    <$> sysRun expireOne fresh
  = Some (Terminated, [], Some stored) ∧
  HasExpired 3 (pointee stored) = true ∧
  sweep (λ _, 3) 0 (items oneTimed) [Item a 2] = (items oneTimed, []) ∧
  any_eqb (AnyItemPtr stored) (AnyItem (Item a 2)) = false.
Proof. repeat split; vm_compute; reflexivity. Qed.

Lemma chainInsert_head (node ring : @keyed string) (next : list keyed) :
  ∃ rest, chainInsert node (ring :: next) = ring :: rest.
Proof. simpl. destruct next; simpl; [by eexists|]. case_match; by eexists. Qed.

(** C2: [Set(a, b, 10)] then [Set(b, c, 5)]: the record of [b], which
    expires first, is put after the record of [a], where the specification
    puts it before; the chain is not ascending. *)
Theorem C2_chainInsert_unsorted :
  chainInsert (Item b 5) [Item a 10] = [Item a 10; Item b 5] ∧
  spec_insert (Item b 5) [Item a 10] = [Item b 5; Item a 10] ∧
  ascending (chainInsert (Item b 5) [Item a 10]) = false ∧
  ascending (spec_insert (Item b 5) [Item a 10]) = true ∧
  (λ s, chain (cache s)) <$> sysRun insertEarlier fresh
    = Some [Item a 10; Item b 5] ∧
  chainInsert (Item b 5) [Item a 10; Item c 20]
    = [Item a 10; Item b 5; Item c 20].
Proof. repeat split; vm_compute; reflexivity. Qed.

(** C3, at the boundary: a key stored with expiry 2 and read when the clock
    reads exactly 2 is found, with its value and its expiry. *)
Lemma C3_found_at_expiry :
  items oneTimed !! a = Some stored ∧
  expires (pointee stored) = 2 ∧
  GetExpires EmptyString 2 oneTimed a = (b, 2, true) ∧
  Get EmptyString 2 oneTimed a = (b, true) ∧
  ¬ (expires (pointee stored) ≤ 2 →
     GetExpires EmptyString 2 oneTimed a = (EmptyString, zero, false)).
Proof.
  split; [reflexivity|]. split; [reflexivity|].
  split; [reflexivity|]. split; [reflexivity|].
  intros Hclaim. specialize (Hclaim ltac:(simpl; lia)).
  vm_compute in Hclaim. discriminate.
Qed.

Lemma C3_lazy_expiry_witness :
  items oneTimed !! a = Some stored ∧
  expires (pointee stored) ≠ zero ∧
  Get EmptyString 1 oneTimed a = (b, true) ∧
  Get EmptyString 3 oneTimed a = (EmptyString, false).
Proof.
  assert (items oneTimed !! a = Some stored) as Hi by reflexivity.
  assert (expires (pointee stored) ≠ zero) as Hnz by (simpl; discriminate).
  split; [exact Hi|]. split; [exact Hnz|]. split.
  - apply (C3_lazy_expiry EmptyString oneTimed a stored 1 Hi Hnz).
    simpl. lia.
  - apply (C3_lazy_expiry EmptyString oneTimed a stored 3 Hi Hnz).
    simpl. lia.
Defined.

(** C4, at the boundary: [Set] with an expiry equal to the current time,
    which is not strictly later, writes the store and sends the node. *)
Lemma C4_set_at_now_writes :
  closed (New : SCache) = false ∧
  ¬ (5 > 5) ∧
  Set_ 5 a b 5 (New : SCache) ≠ (New, None) ∧
  items (Set_ 5 a b 5 (New : SCache)).1 !! a = Some (ItemPtr 0 (Item b 5)) ∧
  (Set_ 5 a b 5 (New : SCache)).2 = Some (ChainAdd (Item a 5)) ∧
  Get EmptyString 5 (Set_ 5 a b 5 (New : SCache)).1 a = (b, true).
Proof.
  split; [reflexivity|]. split; [lia|]. split; [|by vm_compute].
  intros Heq. apply (f_equal snd) in Heq. vm_compute in Heq. discriminate.
Qed.

Lemma C4_set_past_noop_witness :
  closed (New : SCache) = false ∧
  1 < 2 ∧
  Set_ 2 a b 1 (New : SCache) = (New, None).
Proof.
  assert (closed (New : SCache) = false) as Hopen by reflexivity.
  assert (1 < 2) as Hlt by lia.
  split; [exact Hopen|]. split; [exact Hlt|].
  apply (C4_set_past_noop EmptyString New 2 a b 1 Hopen Hlt).
Defined.

Lemma C5_cleaner_exit_witness :
  chain (New : SCache) = [] ∧
  cleanerStep NoneReady Bootstrapping (New : SCache) = Some (Terminated, New) ∧
  cleanerStep (RecvAdd (Item a 2)) Bootstrapping (New : SCache)
    = Some (Armed, withChain New [Item a 2]) ∧
  chain oneRecord ≠ [] ∧
  cleanerStep (TimerFire (λ _, 3)) Armed oneRecord
    = Some (Terminated, withChain oneRecord []).
Proof.
  assert (chain (New : SCache) = []) as Hnil by reflexivity.
  assert (chain oneRecord ≠ []) as Hne by (simpl; discriminate).
  pose proof (C5_cleaner_exit (New : SCache) (Item a 2) a (λ _, 3))
    as (Hboot & _ & _ & _ & Hrecv & _).
  pose proof (C5_cleaner_exit oneRecord (Item a 2) a (λ _, 3))
    as (_ & _ & _ & _ & _ & _ & Hfire & _).
  split; [exact Hnil|]. split; [exact (Hboot Hnil)|].
  split; [apply (Hrecv Bootstrapping); discriminate|].
  split; [exact Hne|].
  apply (proj1 (Hfire Hne)). reflexivity.
Defined.

Lemma C6_closed_noop_witness :
  Close oneTimed = Some shutTimed ∧
  SetPermanent a c shutTimed = (shutTimed, None) ∧
  Set_ 1 a c 9 shutTimed = (shutTimed, None) ∧
  Delete a shutTimed = (shutTimed, None) ∧
  sysRun [ACall 1 (CallDelete a); ACall 1 (CallSetPermanent a c)]
    {| cache := shutTimed; cleanerPhase := Terminated |}
  = Some {| cache := shutTimed; cleanerPhase := Terminated |} ∧
  items oneTimed !! a = Some stored ∧
  HasExpired 1 (pointee stored) = false ∧
  HasExpired 3 (pointee stored) = true ∧
  Get EmptyString 1 shutTimed a = (b, true) ∧
  Get EmptyString 3 shutTimed a = (EmptyString, false).
Proof.
  assert (Close oneTimed = Some shutTimed) as Hclose by reflexivity.
  assert (sysRun [ACall 1 (CallDelete a); ACall 1 (CallSetPermanent a c)]
            {| cache := shutTimed; cleanerPhase := Terminated |}
          = Some {| cache := shutTimed; cleanerPhase := Terminated |}) as Hrun
    by reflexivity.
  assert (items oneTimed !! a = Some stored) as Hi by reflexivity.
  assert (HasExpired 1 (pointee stored) = false) as Hlive by reflexivity.
  assert (HasExpired 3 (pointee stored) = true) as Hexp by reflexivity.
  pose proof (C6_closed_noop EmptyString oneTimed shutTimed Hclose)
    as (Hperm & Hset & Hdel & _ & _ & _ & Hreads).
  destruct (Hreads _ Terminated _ Hrun) as (_ & _ & Hfound & Hgone & _).
  split; [exact Hclose|]. split; [apply Hperm|].
  split; [apply Hset|]. split; [apply Hdel|].
  split; [exact Hrun|]. split; [exact Hi|].
  split; [exact Hlive|]. split; [exact Hexp|]. split.
  - exact (proj1 (proj2 (Hfound a stored 1 Hi Hlive))).
  - exact (proj2 (Hgone a stored 3 Hi Hexp)).
Defined.

Lemma C7_permanent_witness :
  closed (New : SCache) = false ∧
  ∀ now : Time, Get EmptyString now (SetPermanent a b (New : SCache)).1 a
                = (b, true).
Proof.
  assert (closed (New : SCache) = false) as Hopen by reflexivity.
  split; [exact Hopen|].
  apply (C7_permanent EmptyString New a b Hopen).
Defined.

Lemma C9_boundary_is_live_witness :
  items oneTimed !! a = Some stored ∧
  expires (pointee stored) = 2 ∧
  GetExpires EmptyString 2 oneTimed a = (data (pointee stored), 2, true).
Proof.
  assert (items oneTimed !! a = Some stored) as Hi by reflexivity.
  assert (expires (pointee stored) = 2) as He by reflexivity.
  split; [exact Hi|]. split; [exact He|].
  apply (C9_boundary_is_live EmptyString oneTimed a stored 2 Hi He).
Defined.

Lemma C10_permanent_zero_expiry_witness :
  closed (New : SCache) = false ∧
  GetExpires EmptyString 7 (SetPermanent a b (New : SCache)).1 a
    = (b, zero, true).
Proof.
  assert (closed (New : SCache) = false) as Hopen by reflexivity.
  split; [exact Hopen|].
  apply (C10_permanent_zero_expiry EmptyString New a b 7 Hopen).
Defined.

End Runs.

(** * More of the code *)

Section Chain.

Context {K : Type} `{Countable K}.

Implicit Types (ch next : list (@keyed K)) (node ring : @keyed K) (key : K).

(** ** chainInsert *)

Lemma chainInsertLoop_split node next :
  ∀ ring, ∃ l1 l2,
    next = l1 ++ l2 ∧ chainInsertLoop node ring next = ring :: l1 ++ node :: l2.
Proof.
  induction next as [|ring' next' IH]; intros ring; simpl.
  - by exists [], [].
  - destruct (After (expires ring) (expires node)).
    + by exists [], (ring' :: next').
    + destruct (IH ring') as (l1 & l2 & Hsplit & Hloop).
      exists (ring' :: l1), l2. rewrite Hloop. split; [|done].
      simpl. by f_equal.
Qed.

(** X1: [chainInsert] puts the node somewhere among the records of the chain,
    which all stay, each once and in the order they had. *)
Theorem chainInsert_keeps_records node ch :
  ∃ l1 l2,
    ch = l1 ++ l2 ∧
    chainInsert node ch = l1 ++ node :: l2 ∧
    chainInsert node ch ≡ₚ node :: ch ∧
    length (chainInsert node ch) = S (length ch).
Proof.
  assert (∃ l1 l2, ch = l1 ++ l2 ∧ chainInsert node ch = l1 ++ node :: l2)
    as (l1 & l2 & Hch & Hins).
  { destruct ch as [|ring next]; simpl.
    - by exists [], [].
    - destruct (chainInsertLoop_split node next ring)
        as (l1 & l2 & Hsplit & Hloop).
      exists (ring :: l1), l2. rewrite Hloop, Hsplit. done. }
  exists l1, l2. split; [done|]. split; [done|].
  rewrite Hins, Hch. split.
  - symmetry. apply Permutation_middle.
  - rewrite !length_app. simpl. lia.
Qed.

Lemma chainInsertLoop_append node next :
  ∀ ring,
  Forall (λ r, (expires r ≤ expires node)%Z) (ring :: next) →
  chainInsertLoop node ring next = ring :: next ++ [node].
Proof.
  induction next as [|ring' next' IH]; intros ring Hall; simpl; [done|].
  apply Forall_cons in Hall as [Hring Hnext].
  unfold After. destruct (Z.ltb_spec (expires node) (expires ring)); [lia|].
  by rewrite (IH ring' Hnext).
Qed.

Lemma ascending_snoc node ch :
  Forall (λ r, (expires r ≤ expires node)%Z) ch →
  ascending ch = true → ascending (ch ++ [node]) = true.
Proof.
  induction ch as [|ring next IH]; intros Hall Hasc; [done|].
  apply Forall_cons in Hall as [Hring Hnext].
  destruct next as [|ring' next'].
  - simpl. unfold After.
    by destruct (Z.ltb_spec (expires node) (expires ring)); [lia|].
  - change (ascending (ring :: ring' :: next') = true) with
      (negb (After (expires ring) (expires ring'))
       && ascending (ring' :: next') = true) in Hasc.
    apply andb_true_iff in Hasc as [Hhd Htl].
    change (negb (After (expires ring) (expires ring'))
            && ascending ((ring' :: next') ++ [node]) = true).
    rewrite Hhd. simpl. by apply IH.
Qed.

(** X2: A node that expires no earlier than any record of the chain is linked
    at the tail, after the records of the same expiry; an ascending chain
    stays ascending. *)
Theorem chainInsert_latest_appends node ch :
  Forall (λ r, (expires r ≤ expires node)%Z) ch →
  chainInsert node ch = ch ++ [node] ∧
  (ascending ch = true → ascending (chainInsert node ch) = true).
Proof.
  intros Hall.
  assert (chainInsert node ch = ch ++ [node]) as Hins.
  { destruct ch as [|ring next]; simpl; [done|].
    by apply chainInsertLoop_append. }
  split; [done|]. rewrite Hins. by apply ascending_snoc.
Qed.

(** ** chainSplice *)

Lemma chainSplice_loop key ch : chainSplice key ch = chainSpliceLoop key ch.
Proof. by destruct ch. Qed.

(** X3: [chainSplice] of a key that has no record leaves the chain as it is. *)
Theorem chainSplice_absent key ch :
  Forall (λ r, data r ≠ key) ch → chainSplice key ch = ch.
Proof.
  rewrite chainSplice_loop.
  induction ch as [|node next IH]; intros Hall; simpl; [done|].
  apply Forall_cons in Hall as [Hnode Hnext].
  destruct (decide (data node = key)); [done|]. by rewrite IH.
Qed.

(** X4: [chainSplice] takes out the first record of the key and no other: the
    records before it, the records after it, later records of the same key
    among them, stay in place. *)
Theorem chainSplice_first key (l1 l2 : list (@keyed K)) node :
  Forall (λ r, data r ≠ key) l1 →
  data node = key →
  chainSplice key (l1 ++ node :: l2) = l1 ++ l2.
Proof.
  rewrite chainSplice_loop. intros Hall Hkey.
  induction l1 as [|ring next IH]; simpl.
  - by destruct (decide (data node = key)).
  - apply Forall_cons in Hall as [Hring Hnext].
    destruct (decide (data ring = key)); [done|]. by rewrite IH.
Qed.

(** X5: Inserting a node and splicing its key gives the chain back, when the key
    had no record before. *)
Theorem chainSplice_chainInsert node ch :
  Forall (λ r, data r ≠ data node) ch →
  chainSplice (data node) (chainInsert node ch) = ch.
Proof.
  intros Hall.
  destruct (chainInsert_keeps_records node ch) as (l1 & l2 & Hch & Hins & _).
  rewrite Hins, Hch. apply chainSplice_first; [|done].
  rewrite Hch in Hall. by apply Forall_app in Hall as [? _].
Qed.

End Chain.

Section Methods.

Context {K : Type} `{Countable K}.
Context {V : Type}.
Variable zeroV : V.

Implicit Types (c : @Cache K _ _ V) (key : K) (value : V).

(** ** The timer *)

(** X8: [timeUntil] is negative, zero or positive as the instant is before, at
    or after the reading of the clock, and never leaves the range of a
    duration: the timer of a record that [HasExpired] is due at once. *)
Theorem timeUntil_sign (now t : Time) :
  ((timeUntil now t < 0)%Z ↔ Before t now = true) ∧
  (timeUntil now t = 0%Z ↔ t = now) ∧
  ((0 < timeUntil now t)%Z ↔ After t now = true) ∧
  (minDuration ≤ timeUntil now t ≤ maxDuration)%Z ∧
  (∀ (T : Type) (i : item T),
     expires i = t → HasExpired now i = true → (timeUntil now t < 0)%Z).
Proof.
  assert ((timeUntil now t < 0)%Z ↔ Before t now = true) as Hneg.
  { unfold timeUntil, Sub, Before, minDuration, maxDuration.
    rewrite Z.ltb_lt. repeat case_match; lia. }
  split; [done|]. split; [|split; [|split]].
  - unfold timeUntil, Sub, minDuration, maxDuration. repeat case_match; lia.
  - unfold timeUntil, Sub, After, minDuration, maxDuration.
    rewrite Z.ltb_lt. repeat case_match; lia.
  - unfold timeUntil, Sub, minDuration, maxDuration. repeat case_match; lia.
  - intros T i <- Hexp. apply Hneg.
    unfold HasExpired in Hexp. by apply andb_true_iff in Hexp as [_ ?].
Qed.

(** ** Reads after writes *)

(** X9: [Set] on an open cache with an expiry not before the clock: the key then
    reads as the new value and expiry, whatever it held before, as long as
    the clock has not passed the expiry; once it has, the key is not found
    if the expiry is not the zero instant, and is found for ever if it is;
    the other keys read as before; the node of the key is sent on
    [chainAdd] and the chain is not written. *)
Theorem Set_then_GetExpires c (now : Time) key value (exp t : Time) :
  closed c = false →
  (now ≤ exp)%Z →
  (Set_ now key value exp c).2 = Some (ChainAdd (Item key exp)) ∧
  chain (Set_ now key value exp c).1 = chain c ∧
  GetExpires zeroV t (Set_ now key value exp c).1 key
    = (if HasExpired t (Item value exp) then (zeroV, zero, false)
       else (value, exp, true)) ∧
  ((t ≤ exp)%Z →
     GetExpires zeroV t (Set_ now key value exp c).1 key = (value, exp, true) ∧
     Get zeroV t (Set_ now key value exp c).1 key = (value, true)) ∧
  ((exp < t)%Z → exp ≠ zero →
     GetExpires zeroV t (Set_ now key value exp c).1 key
       = (zeroV, zero, false) ∧
     Get zeroV t (Set_ now key value exp c).1 key = (zeroV, false)) ∧
  (exp = zero →
     GetExpires zeroV t (Set_ now key value exp c).1 key = (value, zero, true) ∧
     Get zeroV t (Set_ now key value exp c).1 key = (value, true)) ∧
  (∀ key', key' ≠ key →
     GetExpires zeroV t (Set_ now key value exp c).1 key'
     = GetExpires zeroV t c key').
Proof.
  intros Hopen Hle. rewrite (Set_open_not_past c now key value exp Hopen Hle).
  simpl. split; [done|]. split; [done|].
  assert (GetExpires zeroV t
            {| items := <[key:=ItemPtr (nextAddr c) (Item value exp)]> (items c);
               chain := chain c; closed := false;
               nextAddr := S (nextAddr c) |} key
          = (if HasExpired t (Item value exp) then (zeroV, zero, false)
             else (value, exp, true))) as Hg.
  { unfold GetExpires. simpl. by rewrite lookup_insert_eq. }
  split; [done|]. rewrite Get_GetExpires, Hg.
  split; [|split; [|split]].
  - intros Hlive. by rewrite (HasExpired_not_later t (Item value exp)).
  - intros Hlt Hnz. by rewrite (HasExpired_later t (Item value exp)).
  - intros ->. by rewrite (HasExpired_zero t (Item value zero)).
  - intros key' Hne. apply GetExpires_items. simpl.
    by rewrite lookup_insert_ne.
Qed.

(** X10: [Delete] on an open cache: the key is not found at any time afterwards,
    whether it was stored or not; the other keys read as before; the key is
    sent on [chainDel] and the chain is not written. *)
Theorem Delete_then_GetExpires c key (t : Time) :
  closed c = false →
  (Delete key c).2 = Some (ChainDel key) ∧
  chain (Delete key c).1 = chain c ∧
  GetExpires zeroV t (Delete key c).1 key = (zeroV, zero, false) ∧
  Get zeroV t (Delete key c).1 key = (zeroV, false) ∧
  (∀ key', key' ≠ key →
     GetExpires zeroV t (Delete key c).1 key' = GetExpires zeroV t c key').
Proof.
  intros Hopen. unfold Delete. rewrite Hopen. simpl.
  split; [done|]. split; [done|].
  assert (GetExpires zeroV t
            {| items := delete key (items c); chain := chain c;
               closed := false; nextAddr := nextAddr c |} key
          = (zeroV, zero, false)) as Hg.
  { unfold GetExpires. simpl. by rewrite lookup_delete_eq. }
  split; [done|]. split; [by rewrite Get_GetExpires, Hg|].
  intros key' Hne. apply GetExpires_items. simpl.
  by rewrite lookup_delete_ne.
Qed.

(** X11: Writing a key that the store did not hold and deleting it gives the
    store back, for [Set] and for [SetPermanent]. *)
Theorem Delete_undoes_write c (now : Time) key value (exp : Time) :
  closed c = false →
  items c !! key = None →
  items (Delete key (Set_ now key value exp c).1).1 = items c ∧
  items (Delete key (SetPermanent key value c).1).1 = items c.
Proof.
  intros Hopen Hnone. unfold Delete, Set_, SetPermanent. rewrite Hopen.
  split.
  - destruct (Before exp now); simpl.
    + rewrite Hopen. by apply delete_id.
    + by rewrite delete_insert_eq, delete_id.
  - simpl. by rewrite delete_insert_eq, delete_id.
Qed.

(** ** Not found *)

(** X12: A read that does not find its key returns the zero value and the zero
    instant, whether the key is missing or has expired, and every later
    read of the same store does not find it either. *)
Theorem GetExpires_not_found c key (t t' : Time) :
  (GetExpires zeroV t c key).2 = false →
  (t ≤ t')%Z →
  GetExpires zeroV t c key = (zeroV, zero, false) ∧
  GetExpires zeroV t' c key = (zeroV, zero, false) ∧
  Get zeroV t' c key = (zeroV, false).
Proof.
  intros Hnot Hle.
  assert (GetExpires zeroV t c key = (zeroV, zero, false)
          ∧ GetExpires zeroV t' c key = (zeroV, zero, false)) as [Ht Ht'].
  { unfold GetExpires in *. destruct (items c !! key) as [i|]; [|done].
    destruct (HasExpired t (pointee i)) eqn:Hexp; [|done].
    apply HasExpired_spec in Hexp as [Hnz Hlt].
    by rewrite (HasExpired_later t' (pointee i)) by (done || lia). }
  split; [done|]. split; [done|]. by rewrite Get_GetExpires, Ht'.
Qed.

(** ** Range and Get *)

(** What the function handed to [sync.Map.Range] shows of an entry when the
    clock reads [now]. *)
Lemma rangeLoop_collect (now : Time) (entries : list (K * @itemPtr V)) :
  ∀ (n : nat) (seen : list (K * V)),
  rangeLoop collect (λ _, now) n entries seen
  = seen ++ omap (λ e : K * itemPtr,
                    if HasExpired now (pointee e.2) then None
                    else Some (e.1, data (pointee e.2))) entries.
Proof.
  induction entries as [|[key i] rest IH]; intros n seen; simpl.
  - by rewrite app_nil_r.
  - destruct (HasExpired now (pointee i)); rewrite IH; [done|].
    by rewrite <- app_assoc.
Qed.

(** X13: [Range] with a visitor that always goes on shows exactly the pairs that
    [GetExpires] finds at the same reading of the clock. *)
Theorem Range_shows_what_Get_finds c (now : Time) key value :
  (key, value) ∈ (Range collect (λ _, now) c []).2
  ↔ ∃ exp : Time, GetExpires zeroV now c key = (value, exp, true).
Proof.
  unfold Range. simpl. rewrite rangeLoop_collect. simpl.
  rewrite list_elem_of_omap. split.
  - intros ([k i] & Hin & Hshow). simpl in Hshow.
    apply elem_of_map_to_list in Hin.
    destruct (HasExpired now (pointee i)) eqn:Hexp; [discriminate|].
    injection Hshow as -> <-. exists (expires (pointee i)).
    by apply GetExpires_live.
  - intros (exp & Hget). unfold GetExpires in Hget.
    destruct (items c !! key) as [i|] eqn:Hi; [|discriminate].
    destruct (HasExpired now (pointee i)) eqn:Hexp; [discriminate|].
    injection Hget as <- _. exists (key, i).
    split; [by apply elem_of_map_to_list|]. simpl. by rewrite Hexp.
Qed.

End Methods.

(** From a step of the cleaner that ends in [exitIfEmpty]: the phase and
    the cache it leaves. *)
Ltac after_exit Hstep :=
  apply (inj Some) in Hstep;
  let Hc := fresh "Hc" in
  pose proof (f_equal snd Hstep) as Hc;
  apply (f_equal fst) in Hstep;
  rewrite exitIfEmpty_cache in Hc; simpl in Hc, Hstep.

Section System.

Context {K : Type} `{Countable K}.
Context {V : Type}.

Implicit Types (c : @Cache K _ _ V) (s : @System K _ _ V).
Implicit Types (acts : list (@action K V)).

Lemma exitIfEmpty_armed c : (exitIfEmpty c).1 = Armed → chain c ≠ [].
Proof. unfold exitIfEmpty. by destruct (chain c). Qed.

Lemma cleanerStep_armed (ev : event) (ph : phase) c c' :
  cleanerStep ev ph c = Some (Armed, c') → chain c' ≠ [].
Proof.
  intros Hstep.
  destruct ph, ev; simpl in Hstep; try discriminate;
    try (after_exit Hstep; subst c'; by apply exitIfEmpty_armed).
  - by destruct (closed c).
  - destruct (chain c) as [|node next]; [discriminate|].
    destruct (sweep clk 0 (items c) (node :: next)) as [m' ch'].
    after_exit Hstep. subst c'. by apply exitIfEmpty_armed.
Qed.

(** ** The timer always has a head to be set on *)

(** X14: Whenever the cleaner is in its loop, the chain has a head: the
    [c.chain.expires] that sets the timer never meets a nil chain, whatever
    the callers and the cleaner have done. *)
Theorem armed_chain_has_head acts :
  ∀ s s',
  (cleanerPhase s = Armed → chain (cache s) ≠ []) →
  sysRun acts s = Some s' →
  cleanerPhase s' = Armed → chain (cache s') ≠ [].
Proof.
  induction acts as [|act rest IH]; intros s s' Hinv Hrun; simpl in Hrun.
  - by injection Hrun as <-.
  - destruct (sysStep act s) as [s1|] eqn:Hstep; [|discriminate].
    simpl in Hrun. apply (IH s1 s'); [|done]. clear IH Hrun.
    destruct act as [now op| |ev]; simpl in Hstep.
    + injection Hstep as <-. simpl. by rewrite applyCall_chain.
    + unfold Close in Hstep. destruct (closed (cache s)); [discriminate|].
      by injection Hstep as <-.
    + destruct (cleanerStep ev (cleanerPhase s) (cache s)) as [[ph c1]|]
        eqn:Hcl; [|discriminate].
      injection Hstep as <-. simpl. intros ->.
      by apply (cleanerStep_armed _ _ _ _ Hcl).
Qed.

(** ** Only the cleaner writes the chain *)

(** X15: A run in which the cleaner takes no step leaves the chain and the phase
    of the cleaner as they were: no method writes the chain. *)
Theorem callers_leave_chain acts :
  ∀ s s',
  forallb (λ a, negb (isCleaner a)) acts = true →
  sysRun acts s = Some s' →
  chain (cache s') = chain (cache s) ∧ cleanerPhase s' = cleanerPhase s.
Proof.
  induction acts as [|act rest IH]; intros s s' Hcallers Hrun; simpl in *.
  - by injection Hrun as <-.
  - apply andb_true_iff in Hcallers as [Hact Hrest].
    destruct (sysStep act s) as [s1|] eqn:Hstep; [|discriminate].
    simpl in Hrun. destruct (IH s1 s' Hrest Hrun) as [-> ->]. clear IH Hrun.
    destruct act as [now op| |ev]; simpl in *; [| |discriminate].
    + injection Hstep as <-. simpl. by rewrite applyCall_chain.
    + unfold Close in Hstep. destruct (closed (cache s)); [discriminate|].
      by injection Hstep as <-.
Qed.

(** ** A cleaner that starts with nothing to do *)

Lemma terminated_receives_nothing acts :
  ∀ s s',
  cleanerPhase s = Terminated →
  sysRun acts s = Some s' →
  forallb (λ a, negb (isCleaner a)) acts = true.
Proof.
  induction acts as [|act rest IH]; intros s s' Hph Hrun; simpl in *; [done|].
  destruct (sysStep act s) as [s1|] eqn:Hstep; [|discriminate].
  simpl in Hrun. apply andb_true_iff.
  destruct act as [now op| |ev]; simpl in *.
  - split; [done|]. apply (IH s1 s'); [|done]. by injection Hstep as <-.
  - split; [done|]. apply (IH s1 s'); [|done].
    unfold Close in Hstep. destruct (closed (cache s)); [discriminate|].
    by injection Hstep as <-.
  - rewrite Hph in Hstep. by destruct ev.
Qed.

(** X16: When the cleaner makes its first [select] on an empty chain with no
    instruction pending, it returns; from then on no instruction is ever
    received, and the chain stays empty whatever is written to the cache. *)
Theorem cleaner_dies_on_empty_start c acts s :
  chain c = [] →
  sysRun (ACleaner NoneReady :: acts)
    {| cache := c; cleanerPhase := Bootstrapping |} = Some s →
  cleanerStep NoneReady Bootstrapping c = Some (Terminated, c) ∧
  cleanerPhase s = Terminated ∧
  chain (cache s) = [] ∧
  forallb (λ a, negb (isCleaner a)) acts = true.
Proof.
  intros Hnil Hrun.
  assert (cleanerStep NoneReady Bootstrapping c = Some (Terminated, c))
    as Hstep by (simpl; unfold exitIfEmpty; by rewrite Hnil).
  split; [done|].
  simpl in Hrun. unfold exitIfEmpty in Hrun. rewrite Hnil in Hrun.
  simpl in Hrun.
  destruct (sysRun_terminated acts
              {| cache := c; cleanerPhase := Terminated |} s eq_refl Hrun)
    as [Hph Hch].
  split; [done|]. split; [by rewrite Hch|].
  by apply (terminated_receives_nothing acts
              {| cache := c; cleanerPhase := Terminated |} s).
Qed.

(** ** Closed for good *)

(** X17: Once the cache is closed it stays closed, and a run from there holds no
    second [Close]: closing the closed channel panics. *)
Theorem closed_for_good acts :
  ∀ s s',
  closed (cache s) = true →
  sysRun acts s = Some s' →
  closed (cache s') = true ∧ AClose ∉ acts.
Proof.
  induction acts as [|act rest IH]; intros s s' Hclosed Hrun; simpl in Hrun.
  - injection Hrun as <-. split; [done|]. apply not_elem_of_nil.
  - destruct (sysStep act s) as [s1|] eqn:Hstep; [|discriminate].
    simpl in Hrun.
    assert (closed (cache s1) = true ∧ act ≠ AClose) as [Hclosed1 Hact].
    { destruct act as [now op| |ev]; simpl in Hstep.
      - injection Hstep as <-. simpl.
        by rewrite (applyCall_closed _ _ _ Hclosed).
      - unfold Close in Hstep. by rewrite Hclosed in Hstep.
      - destruct (cleanerStep ev (cleanerPhase s) (cache s)) as [[ph c1]|]
          eqn:Hcl; [|discriminate].
        injection Hstep as <-. simpl.
        destruct (cleanerStep_items _ _ _ _ _ Hcl) as [_ ->]. done. }
    destruct (IH s1 s' Hclosed1 Hrun) as [? Hnot]. split; [done|].
    intros [Hhd|Htl]%elem_of_cons; [by apply Hact|by apply Hnot].
Qed.

End System.

Section Sweep.

Context {K : Type} `{Countable K}.
Context {V : Type}.

Implicit Types (ch next : list (@keyed K)) (m : gmap K (@itemPtr V)).

Lemma ascending_tail (ring : @keyed K) next :
  ascending (ring :: next) = true → ascending next = true.
Proof.
  destruct next as [|ring' next']; [done|].
  change (ascending (ring :: ring' :: next')) with
    (negb (After (expires ring) (expires ring')) && ascending (ring' :: next')).
  intros Hasc. by apply andb_true_iff in Hasc as [_ ?].
Qed.

Lemma ascending_head_least (ring : @keyed K) next :
  ascending (ring :: next) = true →
  Forall (λ r, (expires ring ≤ expires r)%Z) next.
Proof.
  revert ring. induction next as [|ring' next' IH]; intros ring Hasc; [done|].
  change (ascending (ring :: ring' :: next')) with
    (negb (After (expires ring) (expires ring')) && ascending (ring' :: next'))
    in Hasc.
  apply andb_true_iff in Hasc as [Hhd Htl].
  apply negb_true_iff in Hhd. unfold After in Hhd. apply Z.ltb_ge in Hhd.
  apply Forall_cons. split; [done|].
  eapply Forall_impl; [by apply IH|]. simpl. intros r Hr. lia.
Qed.

(** X7: On an ascending chain of records with an expiry, the sweep leaves no
    record that has expired: stopping at the first live head is enough. *)
Theorem sweep_ascending_leaves_live (now : Time) ch :
  ∀ (n : nat) m,
  ascending ch = true →
  Forall (λ r, expires r ≠ zero) ch →
  Forall (λ r, HasExpired now r = false) (sweep (λ _, now) n m ch).2.
Proof.
  induction ch as [|node next IH]; intros n m Hasc Hnz; simpl; [done|].
  destruct (HasExpired now node) eqn:Hexp.
  - apply Forall_cons in Hnz as [_ Hnz].
    apply IH; [by apply (ascending_tail node)|done].
  - simpl. apply Forall_cons. split; [done|].
    apply Forall_cons in Hnz as [Hnode _].
    assert (now ≤ expires node)%Z as Hle.
    { destruct (Z.le_gt_cases now (expires node)) as [|Hlt]; [done|].
      rewrite (HasExpired_later now node Hnode) in Hexp by lia.
      discriminate. }
    eapply Forall_impl; [by apply ascending_head_least|].
    simpl. intros r Hr. apply HasExpired_not_later. lia.
Qed.

End Sweep.

(** * Concrete runs of the rest *)

Section MoreRuns.

Import Run.

Local Open Scope Z_scope.

Lemma chainInsert_latest_appends_witness :
  Forall (λ r : @keyed string, expires r ≤ expires (Item c 9)) threeRecords ∧
  chainInsert (Item c 9) threeRecords = threeRecords ++ [Item c 9].
Proof.
  assert (Forall (λ r : @keyed string, expires r ≤ expires (Item c 9))
            threeRecords) as Hall
    by (repeat constructor; simpl; lia).
  split; [exact Hall|].
  apply (chainInsert_latest_appends (Item c 9) threeRecords Hall).
Defined.

Lemma chainSplice_absent_witness :
  Forall (λ r : @keyed string, data r ≠ c) threeRecords ∧
  chainSplice c threeRecords = threeRecords.
Proof.
  assert (Forall (λ r : @keyed string, data r ≠ c) threeRecords) as Hall
    by (repeat constructor; simpl; discriminate).
  split; [exact Hall|].
  apply (chainSplice_absent c threeRecords Hall).
Defined.

Lemma chainSplice_first_witness :
  Forall (λ r : @keyed string, data r ≠ b) [Item a 2] ∧
  data (Item b 5) = b ∧
  chainSplice b ([Item a 2] ++ Item b 5 :: [Item a 9]) = [Item a 2] ++ [Item a 9].
Proof.
  assert (Forall (λ r : @keyed string, data r ≠ b) [Item a 2]) as Hall
    by (repeat constructor; simpl; discriminate).
  split; [exact Hall|]. split; [reflexivity|].
  apply (chainSplice_first b [Item a 2] [Item a 9] (Item b 5) Hall eq_refl).
Defined.

Lemma chainSplice_chainInsert_witness :
  Forall (λ r : @keyed string, data r ≠ data (Item c 3)) threeRecords ∧
  chainSplice (data (Item c 3)) (chainInsert (Item c 3) threeRecords)
    = threeRecords.
Proof.
  assert (Forall (λ r : @keyed string, data r ≠ data (Item c 3)) threeRecords)
    as Hall by (repeat constructor; simpl; discriminate).
  split; [exact Hall|].
  apply (chainSplice_chainInsert (Item c 3) threeRecords Hall).
Defined.

Lemma Set_then_GetExpires_witness :
  closed (New : SCache) = false ∧
  0 ≤ 2 ∧
  Get EmptyString 1 (Set_ 0 a b 2 (New : SCache)).1 a = (b, true) ∧
  Get EmptyString 3 (Set_ 0 a b 2 (New : SCache)).1 a = (EmptyString, false).
Proof.
  assert (closed (New : SCache) = false) as Hopen by reflexivity.
  assert (0 ≤ 2) as Hle by lia.
  pose proof (Set_then_GetExpires EmptyString New 0 a b 2 1 Hopen Hle)
    as (_ & _ & _ & Hlive & _).
  pose proof (Set_then_GetExpires EmptyString New 0 a b 2 3 Hopen Hle)
    as (_ & _ & _ & _ & Hgone & _).
  split; [exact Hopen|]. split; [exact Hle|]. split.
  - apply Hlive. lia.
  - apply Hgone; [lia|discriminate].
Defined.

Lemma Delete_then_GetExpires_witness :
  closed oneTimed = false ∧
  GetExpires EmptyString 1 (Delete a oneTimed).1 a = (EmptyString, zero, false).
Proof.
  assert (closed oneTimed = false) as Hopen by reflexivity.
  split; [exact Hopen|].
  apply (Delete_then_GetExpires EmptyString oneTimed a 1 Hopen).
Defined.

Lemma Delete_undoes_write_witness :
  closed (New : SCache) = false ∧
  items (New : SCache) !! a = None ∧
  items (Delete a (Set_ 0 a b 2 (New : SCache)).1).1 = items (New : SCache).
Proof.
  assert (closed (New : SCache) = false) as Hopen by reflexivity.
  assert (items (New : SCache) !! a = None) as Hnone by reflexivity.
  split; [exact Hopen|]. split; [exact Hnone|].
  apply (Delete_undoes_write New 0 a b 2 Hopen Hnone).
Defined.

Lemma GetExpires_not_found_witness :
  (GetExpires EmptyString 3 oneTimed a).2 = false ∧
  3 ≤ 4 ∧
  GetExpires EmptyString 4 oneTimed a = (EmptyString, zero, false).
Proof.
  assert ((GetExpires EmptyString 3 oneTimed a).2 = false) as Hnot
    by reflexivity.
  assert (3 ≤ 4) as Hle by lia.
  split; [exact Hnot|]. split; [exact Hle|].
  apply (GetExpires_not_found EmptyString oneTimed a 3 4 Hnot Hle).
Defined.

Lemma armed_chain_has_head_witness :
  (cleanerPhase fresh = Armed → chain (cache fresh) ≠ []) ∧
  sysRun insertEarlier fresh
    = Some {| cache := {| items := items (Set_ 0 b c 5 (Set_ 0 a b 10 New).1).1;
                          chain := [Item a 10; Item b 5]; closed := false;
                          nextAddr := 2 |};
              cleanerPhase := Armed |} ∧
  [Item a 10; Item b 5] ≠ ([] : list (@keyed string)).
Proof.
  assert (cleanerPhase fresh = Armed → chain (cache fresh) ≠ []) as Hinv
    by (simpl; discriminate).
  assert (sysRun insertEarlier fresh
    = Some {| cache := {| items := items (Set_ 0 b c 5 (Set_ 0 a b 10 New).1).1;
                          chain := [Item a 10; Item b 5]; closed := false;
                          nextAddr := 2 |};
              cleanerPhase := Armed |}) as Hrun by reflexivity.
  split; [exact Hinv|]. split; [exact Hrun|].
  apply (armed_chain_has_head insertEarlier fresh _ Hinv Hrun eq_refl).
Defined.

Lemma callers_leave_chain_witness :
  forallb (λ a0 : @action string string, negb (isCleaner a0))
    [ACall 0 (CallSet a b 2); ACall 1 (CallDelete a); AClose] = true ∧
  sysRun [ACall 0 (CallSet a b 2); ACall 1 (CallDelete a); AClose]
    {| cache := oneRecord; cleanerPhase := Armed |}
  = Some {| cache := {| items := ∅; chain := [Item a 2]; closed := true;
                        nextAddr := 2 |};
            cleanerPhase := Armed |} ∧
  [Item a 2] = chain oneRecord.
Proof.
  assert (forallb (λ a0 : @action string string, negb (isCleaner a0))
    [ACall 0 (CallSet a b 2); ACall 1 (CallDelete a); AClose] = true)
    as Hcallers by reflexivity.
  assert (sysRun [ACall 0 (CallSet a b 2); ACall 1 (CallDelete a); AClose]
    {| cache := oneRecord; cleanerPhase := Armed |}
  = Some {| cache := {| items := ∅; chain := [Item a 2]; closed := true;
                        nextAddr := 2 |};
            cleanerPhase := Armed |}) as Hrun by (vm_compute; reflexivity).
  split; [exact Hcallers|]. split; [exact Hrun|].
  apply (callers_leave_chain _ _ _ Hcallers Hrun).
Defined.

Lemma cleaner_dies_on_empty_start_witness :
  chain (New : SCache) = [] ∧
  sysRun [ACleaner NoneReady; ACall 0 (CallSet a b 2)] fresh
  = Some {| cache := oneTimed; cleanerPhase := Terminated |} ∧
  chain oneTimed = [].
Proof.
  assert (chain (New : SCache) = []) as Hnil by reflexivity.
  assert (sysRun [ACleaner NoneReady; ACall 0 (CallSet a b 2)] fresh
          = Some {| cache := oneTimed; cleanerPhase := Terminated |}) as Hrun
    by reflexivity.
  split; [exact Hnil|]. split; [exact Hrun|].
  apply (cleaner_dies_on_empty_start New [ACall 0 (CallSet a b 2)] _ Hnil Hrun).
Defined.

Lemma closed_for_good_witness :
  closed shut = true ∧
  sysRun [ACall 0 (CallSet a b 2)]
    {| cache := shut; cleanerPhase := Terminated |}
  = Some {| cache := shut; cleanerPhase := Terminated |} ∧
  closed shut = true ∧
  AClose ∉ [ACall 0 (CallSet a b 2) : @action string string].
Proof.
  assert (closed shut = true) as Hclosed by reflexivity.
  assert (sysRun [ACall 0 (CallSet a b 2)]
            {| cache := shut; cleanerPhase := Terminated |}
          = Some {| cache := shut; cleanerPhase := Terminated |}) as Hrun
    by reflexivity.
  split; [exact Hclosed|]. split; [exact Hrun|].
  apply (closed_for_good _ {| cache := shut; cleanerPhase := Terminated |}
           _ Hclosed Hrun).
Defined.

Lemma sweep_ascending_leaves_live_witness :
  ascending threeRecords = true ∧
  Forall (λ r : @keyed string, expires r ≠ zero) threeRecords ∧
  Forall (λ r : @keyed string, HasExpired 6 r = false)
    (sweep (λ _, 6) 0 (items oneTimed) threeRecords).2.
Proof.
  assert (ascending threeRecords = true) as Hasc by reflexivity.
  assert (Forall (λ r : @keyed string, expires r ≠ zero) threeRecords) as Hnz
    by (repeat constructor; simpl; discriminate).
  split; [exact Hasc|]. split; [exact Hnz|].
  apply (sweep_ascending_leaves_live 6 threeRecords 0 (items oneTimed)
           Hasc Hnz).
Defined.

End MoreRuns.
